(** * scripts/generate_icons.py: centre-crop an image and write icon PNGs

    A shallow embedding of the icon generation script.  The script is a
    straight line of calls into the imaging library (Pillow) wrapped in one
    [try]/[except]; the embedding keeps that shape:

    - Python integers are [Z]; the floats produced by [int / 2] are exact
      rationals [Qc] (every coordinate is an integer or a half-integer, see
      [crop_box_halves], so binary floating point represents it exactly for
      any image size the library can hold);
    - the imaging library is an interface ([Imaging]) whose operations may
      raise; the script is written once, against the interface;
    - the file system is a finite map from paths to file contents, threaded
      through a state-and-exception monad that also records every library
      call and every printed line in order. *)

From Stdlib Require Import ZArith QArith Qcanon Qround Lia.
From stdpp Require Import gmap strings list fin_maps pretty sorting.

Open Scope Z_scope.

(** ** Python values *)

(** [a / b] on two ints (true division): both are read as floats
    ([Qc_of_Z]) and divided.  The script only divides by the literal [2]. *)
Definition truediv (a b : Z) : Qc := (Qc_of_Z a / Qc_of_Z b)%Qc.

(** A float that is not a whole number. *)
Definition fractional (q : Qc) : bool := negb (Qden q =? 1)%positive.

(** The 4-tuple [(left, top, right, bottom)] handed to [Image.crop]. *)
Definition Box : Type := Qc * Qc * Qc * Qc.

(** [Image.Resampling]. *)
Inductive Resampling :=
  NEAREST | BOX | BILINEAR | HAMMING | BICUBIC | LANCZOS.

(** [os.path.join a b] with the POSIX separator. *)
Definition os_path_join (a b : string) : string :=
  if String.prefix "/" b then b
  else if decide (a = "") then b
  else if String.prefix "/" (String.rev a) then a +:+ b
  else a +:+ "/" +:+ b.

(** ** The imaging library, as the script sees it *)

Class Imaging := {
  (** decoded images *)
  Img : Type;
  (** contents of a file on disk *)
  File : Type;
  (** instances of [Exception] *)
  Exn : Type;
  (** [str(e)] *)
  exn_str : Exn → string;
  (** [Image.open(path)], reading the file system *)
  Image_open : string → gmap string File → Exn + Img;
  (** [img.size], as [(width, height)] *)
  Image_size : Img → Z * Z;
  (** [img.crop(box)] *)
  Image_crop : Img → Box → Exn + Img;
  (** [img.resize(size, resample)] *)
  Image_resize : Img → Z * Z → Resampling → Exn + Img;
  (** what a successful [img.save(path, format)] leaves in the file *)
  Image_encode : string → Img → File;
  (** whether [img.save(path, format)] fails on this file system: [None]
      when it succeeds, otherwise the exception together with whatever is
      left at [path] (nothing, the old file, or a partial one) *)
  Image_save : Img → string → string → gmap string File →
               option (Exn * option File)
}.

Section Model.
Context `{PIL : Imaging}.

(** ** Observable behaviour *)

Inductive Call :=
| COpen (path : string)
| CCrop (src : Img) (box : Box)
| CResize (src : Img) (size : Z * Z) (resample : Resampling)
| CSave (src : Img) (path format : string)
| CClose (src : Img)
| CPrint (line : string).

(** A call either returned or raised. *)
Inductive Event :=
| Did (c : Call)
| Failed (c : Call) (e : Exn).

Definition call_of (ev : Event) : Call :=
  match ev with Did c | Failed c _ => c end.

(** The console: the lines printed, first to last. *)
Definition stdout (evs : list Event) : list string :=
  omap (λ ev, match ev with Did (CPrint line) => Some line | _ => None end) evs.

(** The boxes [crop] was called with. *)
Definition crop_calls (evs : list Event) : list (Img * Box) :=
  omap (λ ev, match call_of ev with CCrop i b => Some (i, b) | _ => None end) evs.

(** The arguments [resize] was called with. *)
Definition resize_calls (evs : list Event) : list (Img * (Z * Z) * Resampling) :=
  omap (λ ev, match call_of ev with
              | CResize i s r => Some (i, s, r) | _ => None end) evs.

(** The [save] calls, attempted or completed. *)
Definition save_calls (evs : list Event) : list (Img * string * string) :=
  omap (λ ev, match call_of ev with
              | CSave i p f => Some (i, p, f) | _ => None end) evs.

(** The files written: the [save] calls that returned. *)
Definition written (evs : list Event) : list (string * Img) :=
  omap (λ ev, match ev with Did (CSave i p _) => Some (p, i) | _ => None end) evs.

(** What a run did from its first failing call on. *)
Fixpoint from_failure (evs : list Event) : list Event :=
  match evs with
  | [] => []
  | Did _ :: evs' => from_failure evs'
  | Failed _ _ :: _ => evs
  end.

(** The images [close] was called on. *)
Definition close_calls (evs : list Event) : list Img :=
  omap (λ ev, match call_of ev with CClose i => Some i | _ => None end) evs.

(** The paths [save] was called on, whether it returned or raised. *)
Definition save_paths (evs : list Event) : list string :=
  (λ x, x.1.2) <$> save_calls evs.

(** ** The monad: file system in, outcome, file system and events out *)

Record Run (A : Type) := MkRun {
  outcome : Exn + A;
  files : gmap string File;
  events : list Event
}.
Global Arguments MkRun {A} _ _ _.
Global Arguments outcome {A} _.
Global Arguments files {A} _.
Global Arguments events {A} _.

Definition M (A : Type) : Type := gmap string File → Run A.

Global Instance M_ret : MRet M := λ A a fs, MkRun (inr a) fs [].

Global Instance M_bind : MBind M := λ A B k m fs,
  let r := m fs in
  match outcome r with
  | inl e => MkRun (inl e) (files r) (events r)
  | inr a => let r' := k a (files r) in
             MkRun (outcome r') (files r') (events r ++ events r')
  end.

(** [for x in xs: body] *)
Fixpoint for_each {A} (xs : list A) (body : A → M unit) : M unit :=
  match xs with
  | [] => mret ()
  | x :: xs' => body x;; for_each xs' body
  end.

(** [try: body / except Exception as e: handler] *)
Definition try_except {A} (body : M A) (handler : Exn → M A) : M A := λ fs,
  let r := body fs in
  match outcome r with
  | inr _ => r
  | inl e => let r' := handler e (files r) in
             MkRun (outcome r') (files r') (events r ++ events r')
  end.

(** ** Library calls *)

Definition open (path : string) : M Img := λ fs,
  match Image_open path fs with
  | inl e => MkRun (inl e) fs [Failed (COpen path) e]
  | inr img => MkRun (inr img) fs [Did (COpen path)]
  end.

Definition crop (img : Img) (box : Box) : M Img := λ fs,
  match Image_crop img box with
  | inl e => MkRun (inl e) fs [Failed (CCrop img box) e]
  | inr c => MkRun (inr c) fs [Did (CCrop img box)]
  end.

Definition resize (img : Img) (size : Z * Z) (resample : Resampling) : M Img :=
  λ fs,
  match Image_resize img size resample with
  | inl e => MkRun (inl e) fs [Failed (CResize img size resample) e]
  | inr r => MkRun (inr r) fs [Did (CResize img size resample)]
  end.

Definition save (img : Img) (path format : string) : M unit := λ fs,
  match Image_save img path format fs with
  | None => MkRun (inr ()) (<[path := Image_encode format img]> fs)
                  [Did (CSave img path format)]
  | Some (e, residue) =>
      MkRun (inl e) (partial_alter (λ _, residue) path fs)
            [Failed (CSave img path format) e]
  end.

Definition print (line : string) : M unit := λ fs,
  MkRun (inr ()) fs [Did (CPrint line)].

(** [with opened as img: body]: the image is closed on the way out,
    whether [body] returned or raised; the exception, if any, goes on. *)
Definition with_image {A} (opened : M Img) (body : Img → M A) : M A := λ fs,
  let r := opened fs in
  match outcome r with
  | inl e => MkRun (inl e) (files r) (events r)
  | inr img => let r' := body img (files r) in
               MkRun (outcome r') (files r')
                     (events r ++ events r' ++ [Did (CClose img)])
  end.

(** ** The script *)

Definition input_path : string :=
  "public/Whisk_5e6bbe242133923a5d44834e6368ed79dr.jpeg".
Definition output_dir : string := "public".

Definition sizes : list Z := [16; 48; 128].

(** Lines 15-20: the centred square. *)
Definition crop_box (width height : Z) : Box :=
  let new_size := Z.min width height in
  let left := truediv (width - new_size) 2 in
  let top := truediv (height - new_size) 2 in
  let right := truediv (width + new_size) 2 in
  let bottom := truediv (height + new_size) 2 in
  (left, top, right, bottom).

(** Lines 29-30. *)
Definition output_path (size : Z) : string :=
  let output_filename := "icon" +:+ pretty size +:+ ".png" in
  os_path_join output_dir output_filename.

(** Lines 25-32: one round of the loop. *)
Definition icon (img_cropped : Img) (size : Z) : M unit :=
  img_resized ← resize img_cropped (size, size) LANCZOS;
  save img_resized (output_path size) "PNG";;
  print ("Generated: " +:+ output_path size).

(** Lines 12-32: the body of the [try]. *)
Definition script_body : M unit :=
  with_image (open input_path) (λ img,
    let '(width, height) := Image_size img in
    img_cropped ← crop img (crop_box width height);
    for_each sizes (icon img_cropped)).

(** Lines 11-35: the whole script. *)
Definition main : M unit :=
  try_except script_body (λ e, print ("Error: " +:+ exn_str e)).

(** ** The runs of the script, case by case *)

(** The loop over [l] on the cropped image [c], round by round: it ends,
    or the resize fails, or the save fails, or the round completes and the
    loop goes on from the new file system. *)
Inductive rounds (c : Img) : list Z → gmap string File → Run unit → Prop :=
| rounds_done fs :
    rounds c [] fs (MkRun (inr ()) fs [])
| rounds_resize_failed N l fs e :
    Image_resize c (N, N) LANCZOS = inl e →
    rounds c (N :: l) fs
      (MkRun (inl e) fs [Failed (CResize c (N, N) LANCZOS) e])
| rounds_save_failed N l fs rz e residue :
    Image_resize c (N, N) LANCZOS = inr rz →
    Image_save rz (output_path N) "PNG" fs = Some (e, residue) →
    rounds c (N :: l) fs
      (MkRun (inl e) (partial_alter (λ _, residue) (output_path N) fs)
         [Did (CResize c (N, N) LANCZOS);
          Failed (CSave rz (output_path N) "PNG") e])
| rounds_next N l fs rz r :
    Image_resize c (N, N) LANCZOS = inr rz →
    Image_save rz (output_path N) "PNG" fs = None →
    rounds c l (<[output_path N := Image_encode "PNG" rz]> fs) r →
    rounds c (N :: l) fs
      (MkRun (outcome r) (files r)
         (Did (CResize c (N, N) LANCZOS) ::
          Did (CSave rz (output_path N) "PNG") ::
          Did (CPrint ("Generated: " +:+ output_path N)) :: events r)).

(** The body of the [try]: the open fails, or the crop fails, or the loop
    runs on the cropped image. *)
Inductive body_run (fs : gmap string File) : Run unit → Prop :=
| run_open_failed e :
    Image_open input_path fs = inl e →
    body_run fs (MkRun (inl e) fs [Failed (COpen input_path) e])
| run_crop_failed img W H e :
    Image_open input_path fs = inr img →
    Image_size img = (W, H) →
    Image_crop img (crop_box W H) = inl e →
    body_run fs
      (MkRun (inl e) fs
         [Did (COpen input_path); Failed (CCrop img (crop_box W H)) e;
          Did (CClose img)])
| run_cropped img W H c r :
    Image_open input_path fs = inr img →
    Image_size img = (W, H) →
    Image_crop img (crop_box W H) = inr c →
    rounds c sizes fs r →
    body_run fs
      (MkRun (outcome r) (files r)
         (Did (COpen input_path) :: Did (CCrop img (crop_box W H)) ::
          events r ++ [Did (CClose img)])).

(** What [main] leaves behind once the loop has run as [r]: the events of
    the loop between the crop and the close, then the error line if the
    loop raised. *)
Definition finish (img : Img) (W H : Z) (r : Run unit) : Run unit :=
  MkRun (inr ()) (files r)
    (Did (COpen input_path) :: Did (CCrop img (crop_box W H)) ::
     events r ++ Did (CClose img) ::
     match outcome r with
     | inl e => [Did (CPrint ("Error: " +:+ exn_str e))]
     | inr _ => []
     end).

(** The three ways [main] can go. *)
Inductive main_run_cases (fs : gmap string File) : Prop :=
| main_open_failed e :
    Image_open input_path fs = inl e →
    script_body fs = MkRun (inl e) fs [Failed (COpen input_path) e] →
    main fs = MkRun (inr ()) fs
                [Failed (COpen input_path) e;
                 Did (CPrint ("Error: " +:+ exn_str e))] →
    main_run_cases fs
| main_crop_failed img W H e :
    Image_open input_path fs = inr img →
    Image_size img = (W, H) →
    Image_crop img (crop_box W H) = inl e →
    script_body fs =
      MkRun (inl e) fs
        [Did (COpen input_path); Failed (CCrop img (crop_box W H)) e;
         Did (CClose img)] →
    main fs = MkRun (inr ()) fs
                [Did (COpen input_path); Failed (CCrop img (crop_box W H)) e;
                 Did (CClose img); Did (CPrint ("Error: " +:+ exn_str e))] →
    main_run_cases fs
| main_cropped img W H c r :
    Image_open input_path fs = inr img →
    Image_size img = (W, H) →
    Image_crop img (crop_box W H) = inr c →
    rounds c sizes fs r →
    script_body fs =
      MkRun (outcome r) (files r)
        (Did (COpen input_path) :: Did (CCrop img (crop_box W H)) ::
         events r ++ [Did (CClose img)]) →
    main fs = finish img W H r →
    main_run_cases fs.

(** ** What the library is expected to do *)

(** [resize] returns an image of the size it was asked for. *)
Definition resize_exact : Prop :=
  ∀ img size resample r,
    Image_resize img size resample = inr r → Image_size r = size.

(** Cropping an image to its full extent returns the image. *)
Definition crop_full : Prop :=
  ∀ img W H,
    Image_size img = (W, H) →
    Image_crop img (Qc_of_Z 0, Qc_of_Z 0, Qc_of_Z W, Qc_of_Z H) = inr img.

End Model.

(** ** A small imaging back end

    Images are reduced to their pixel dimensions and a file to its format,
    the dimensions of the image in it and a write-protection flag.  It
    instantiates [Imaging], so the script runs on concrete file systems. *)

Module Dims.

Record file := MkFile { format : string; dims : Z * Z; locked : bool }.

(** Round to the nearest integer, ties to the even one. *)
Definition round (q : Qc) : Z :=
  let f := Qfloor q in
  match (q - Qc_of_Z f ?= Q2Qc (1 # 2))%Qc with
  | Lt => f
  | Gt => f + 1
  | Eq => if Z.even f then f else f + 1
  end.

Definition lib : Imaging := {|
  Img := Z * Z;
  File := file;
  Exn := string;
  exn_str := id;
  Image_open path fs :=
    match fs !! path with
    | Some f => inr (dims f)
    | None => inl ("No such file or directory: " +:+ path)
    end;
  Image_size img := img;
  Image_crop _ '(x0, y0, x1, y1) :=
    inr (round x1 - round x0, round y1 - round y0);
  Image_resize _ size _ := inr size;
  Image_encode fmt img := MkFile fmt img false;
  Image_save _ path _ fs :=
    match fs !! path with
    | Some f => if locked f then Some ("Permission denied: " +:+ path, Some f)
                else None
    | None => None
    end
|}.

(** A 400x300 photograph at the input path. *)
Definition photo : gmap string file :=
  {[ "public/Whisk_5e6bbe242133923a5d44834e6368ed79dr.jpeg" :=
       MkFile "JPEG" (400, 300) false ]}.

(** A square source. *)
Definition square : gmap string file :=
  {[ "public/Whisk_5e6bbe242133923a5d44834e6368ed79dr.jpeg" :=
       MkFile "JPEG" (128, 128) false ]}.

(** The photograph, next to a write-protected [icon48.png]. *)
Definition protected : gmap string file :=
  <[ "public/icon48.png" := MkFile "PNG" (1, 1) true ]> photo.

(** The same back end reading a truncated file: the header gives the size,
    loading the pixels for [crop] fails. *)
Definition truncated : Imaging := {|
  Img := Z * Z;
  File := file;
  Exn := string;
  exn_str := id;
  Image_open := @Image_open lib;
  Image_size img := img;
  Image_crop _ _ := inl "image file is truncated";
  Image_resize := @Image_resize lib;
  Image_encode := @Image_encode lib;
  Image_save := @Image_save lib
|}.

(** The photograph, next to an [icon16.png] left by an earlier run. *)
Definition stale : gmap string file :=
  <[ "public/icon16.png" := MkFile "PNG" (1, 1) false ]> photo.
End Dims.

(** * Properties *)

(** ** Arithmetic of halves *)

Section Halves.
Local Open Scope Qc_scope.

Lemma truediv_2 a : truediv a 2 = Qc_of_Z a / 2.
Proof. unfold truediv. by rewrite Z2Qc_inj_2. Qed.

Lemma truediv_double n : truediv (2 * n) 2 = Qc_of_Z n.
Proof. rewrite truediv_2, Z2Qc_inj_mul, Z2Qc_inj_2. field. discriminate. Qed.

Lemma truediv_sub a b : truediv a 2 - truediv b 2 = truediv (a - b) 2.
Proof. rewrite !truediv_2, Z2Qc_inj_sub. field. discriminate. Qed.

Lemma truediv_le a b : (a ≤ b)%Z ↔ truediv a 2 ≤ truediv b 2.
Proof.
  rewrite !truediv_2, Z2Qc_inj_le. unfold Qcdiv.
  by apply Qcmult_le_mono_pos_r, Qcinv_pos.
Qed.

Lemma truediv_inj a b : truediv a 2 = truediv b 2 → a = b.
Proof. intros E. apply Z.le_antisymm; apply truediv_le; by rewrite E. Qed.

Lemma Qc_whole (q : Qc) : Qden q = 1%positive → q = Qc_of_Z (Qnum q).
Proof.
  intros E. apply Qc_is_canon.
  destruct q as [[n d] c]; simpl in *. by subst.
Qed.

(** Half of an int is fractional exactly when the int is odd. *)
Lemma fractional_truediv a : fractional (truediv a 2) = Z.odd a.
Proof.
  destruct (Z.odd a) eqn:O.
  - unfold fractional.
    destruct (Pos.eqb_spec (Qden (truediv a 2)) 1) as [E|]; [|done].
    apply Qc_whole in E. rewrite <- truediv_double in E.
    apply truediv_inj in E. rewrite E, Z.odd_mul in O. done.
  - rewrite <- Z.negb_even in O.
    apply negb_false_iff, Z.even_spec in O as [k ->].
    by rewrite truediv_double.
Qed.

(** Every coordinate of the crop box is a whole number of halves, so its
    float is exact. *)
Lemma crop_box_halves W H :
  ∃ a b c d : Z,
    crop_box W H = (Qc_of_Z a / 2, Qc_of_Z b / 2, Qc_of_Z c / 2, Qc_of_Z d / 2).
Proof.
  exists (W - Z.min W H)%Z, (H - Z.min W H)%Z, (W + Z.min W H)%Z, (H + Z.min W H)%Z.
  unfold crop_box. by rewrite !truediv_2.
Qed.

End Halves.

(** ** The script runs as [body_run] says *)

Section Runs.
Context `{PIL : Imaging}.
Implicit Types (fs : gmap string File) (c : Img) (l : list Z).

Lemma icon_run c N fs :
  icon c N fs =
  match Image_resize c (N, N) LANCZOS with
  | inl e => MkRun (inl e) fs [Failed (CResize c (N, N) LANCZOS) e]
  | inr r =>
      match Image_save r (output_path N) "PNG" fs with
      | None =>
          MkRun (inr ()) (<[output_path N := Image_encode "PNG" r]> fs)
                [Did (CResize c (N, N) LANCZOS);
                 Did (CSave r (output_path N) "PNG");
                 Did (CPrint ("Generated: " +:+ output_path N))]
      | Some (e, residue) =>
          MkRun (inl e) (partial_alter (λ _, residue) (output_path N) fs)
                [Did (CResize c (N, N) LANCZOS);
                 Failed (CSave r (output_path N) "PNG") e]
      end
  end.
Proof.
  unfold icon, mbind, M_bind, resize, save, print.
  destruct (Image_resize _ _ _) as [e|r]; [done|]. simpl.
  destruct (Image_save _ _ _ _) as [[e residue]|]; done.
Qed.

Lemma for_each_cons {A} (x : A) xs body fs :
  for_each (x :: xs) body fs =
  match outcome (body x fs) with
  | inl e => MkRun (inl e) (files (body x fs)) (events (body x fs))
  | inr _ =>
      let r := for_each xs body (files (body x fs)) in
      MkRun (outcome r) (files r) (events (body x fs) ++ events r)
  end.
Proof. done. Qed.

Lemma for_each_rounds c l fs : rounds c l fs (for_each l (icon c) fs).
Proof.
  revert fs. induction l as [|N l IH]; intros fs; [constructor|].
  rewrite for_each_cons, icon_run.
  destruct (Image_resize _ _ _) as [e|rz] eqn:R; [by constructor|].
  destruct (Image_save _ _ _ _) as [[e residue]|] eqn:S; [by econstructor|].
  cbn -[for_each]. by apply rounds_next.
Qed.

Lemma script_body_run fs : body_run fs (script_body fs).
Proof.
  unfold script_body, with_image, open, mbind, M_bind, crop.
  destruct (Image_open _ _) as [e|img] eqn:E; [by constructor|].
  cbn -[for_each]. destruct (Image_size img) as [W H] eqn:S.
  destruct (Image_crop _ _) as [e|c] eqn:C; [by eapply run_crop_failed|].
  cbn -[for_each]. by eapply run_cropped, for_each_rounds.
Qed.

Lemma main_run fs :
  main fs =
  match outcome (script_body fs) with
  | inr _ => script_body fs
  | inl e =>
      MkRun (inr ()) (files (script_body fs))
            (events (script_body fs) ++
             [Did (CPrint ("Error: " +:+ exn_str e))])
  end.
Proof. done. Qed.

End Runs.

(** ** Facts about the constants of the script and about lists *)

Lemma output_paths :
  output_path <$> sizes =
  ["public/icon16.png"; "public/icon48.png"; "public/icon128.png"].
Proof. by vm_compute. Qed.

Lemma generated_lines :
  (λ N, "Generated: " +:+ output_path N) <$> sizes =
  ["Generated: public/icon16.png"; "Generated: public/icon48.png";
   "Generated: public/icon128.png"].
Proof. by vm_compute. Qed.

Lemma output_paths_NoDup : NoDup (output_path <$> sizes).
Proof.
  rewrite output_paths. apply (bool_decide_unpack _). by vm_compute.
Qed.

Lemma output_path_inj N N' :
  N ∈ sizes → N' ∈ sizes → output_path N = output_path N' → N = N'.
Proof.
  intros HN HN'. apply list_elem_of_In in HN, HN'.
  destruct HN as [<-|[<-|[<-|[]]]], HN' as [<-|[<-|[<-|[]]]];
    vm_compute; congruence.
Qed.

Lemma from_failure_app `{PIL : Imaging} (a b : list Event) :
  from_failure (a ++ b) =
  match from_failure a with
  | [] => from_failure b
  | _ => from_failure a ++ b
  end.
Proof. induction a as [|[k|k e] a IH]; done. Qed.

Lemma filter_none {A} (f : A → bool) (xs : list A) :
  Forall (λ x, f x = false) xs → List.filter f xs = [].
Proof. induction 1 as [|x xs Hx _ IH]; [done|]. cbn. by rewrite Hx. Qed.

Lemma error_line_prefix s : String.prefix "Error: " ("Error: " +:+ s) = true.
Proof. by destruct s. Qed.

Lemma filter_error_line s :
  List.filter (String.prefix "Error: ") ["Error: " +:+ s] = ["Error: " +:+ s].
Proof. cbn [List.filter]. by rewrite error_line_prefix. Qed.

Lemma string_length_app (a b : string) :
  String.length (a +:+ b) = (String.length a + String.length b)%nat.
Proof. induction a as [|x a IH]; [done|]. simpl. by f_equal. Qed.

Lemma string_app_inj_r (s a b : string) : a +:+ s = b +:+ s → a = b.
Proof.
  revert b. induction a as [|x a IH]; intros [|y b] E.
  - done.
  - apply (f_equal String.length) in E.
    rewrite !string_length_app in E. cbn in E. lia.
  - apply (f_equal String.length) in E.
    rewrite !string_length_app in E. cbn in E. lia.
  - cbn in E. injection E as -> E. f_equal. by apply IH.
Qed.

(** Lines 29-30, joined: the icon lands in the output directory. *)
Lemma output_path_shape N : output_path N = "public/icon" +:+ pretty N +:+ ".png".
Proof. done. Qed.

(** The file name determines the size. *)
Lemma output_path_cancel N N' : output_path N = output_path N' → N = N'.
Proof.
  rewrite !output_path_shape. intros E.
  apply (inj (String.app "public/icon")) in E.
  apply string_app_inj_r in E. by apply (inj pretty).
Qed.

(** X6: two different sizes never get the same file name, whatever the
    sizes are. *)
Theorem output_paths_distinct N N' : N ≠ N' → output_path N ≠ output_path N'.
Proof. intros Hne E. by apply Hne, output_path_cancel. Qed.

(** ** What the loop does, by induction on its rounds *)

Section Rounds.
Context `{PIL : Imaging}.
Implicit Types (fs : gmap string File) (c : Img) (l : list Z) (r : Run unit).

Lemma rounds_crop_calls c l fs r : rounds c l fs r → crop_calls (events r) = [].
Proof. by induction 1. Qed.

(** A round that fails is the last thing the loop does. *)
Lemma rounds_failure c l fs r :
  rounds c l fs r →
  match outcome r with
  | inr _ => from_failure (events r) = []
  | inl e => ∃ k : Call, from_failure (events r) = [Failed k e]
  end.
Proof. induction 1; cbn; eauto. Qed.

Lemma rounds_resize_calls c l fs r :
  rounds c l fs r →
  resize_calls (events r) `prefix_of` (λ N, (c, (N, N), LANCZOS)) <$> l ∧
  (outcome r = inr () →
   resize_calls (events r) = (λ N, (c, (N, N), LANCZOS)) <$> l).
Proof.
  induction 1 as [| | |N l fs rz r R S _ [IHp IHs]]; cbn.
  - done.
  - split; [|done]. by apply prefix_cons, prefix_nil.
  - split; [|done]. by apply prefix_cons, prefix_nil.
  - split; [by apply prefix_cons|]. intros O. f_equal. by apply IHs.
Qed.

Lemma rounds_stdout c l fs r :
  rounds c l fs r →
  stdout (events r) `prefix_of` (λ N, "Generated: " +:+ output_path N) <$> l ∧
  (outcome r = inr () →
   stdout (events r) = (λ N, "Generated: " +:+ output_path N) <$> l).
Proof.
  induction 1 as [| | |N l fs rz r R S _ [IHp IHs]]; cbn.
  - done.
  - split; [|done]. apply prefix_nil.
  - split; [|done]. apply prefix_nil.
  - split; [by apply prefix_cons|]. intros O. f_equal. by apply IHs.
Qed.

(** The files written are those of the first rounds, in order, each the
    resize of the cropped image to the size of its round. *)
Lemma rounds_written c l fs r :
  rounds c l fs r →
  ∃ l1 l2, l = l1 ++ l2 ∧
    Forall2 (λ N w, w.1 = output_path N ∧
                    Image_resize c (N, N) LANCZOS = inr w.2)
            l1 (written (events r)) ∧
    (outcome r = inr () → l2 = []).
Proof.
  induction 1 as [| | |N l fs rz r R S _ (l1 & l2 & -> & IH & IHs)]; cbn.
  - by exists [], [].
  - by exists [], (N :: l).
  - by exists [], (N :: l).
  - exists (N :: l1), l2. repeat split; [|done]. by constructor.
Qed.

Lemma rounds_written_sizes c l fs r :
  resize_exact → rounds c l fs r →
  ∀ p i, (p, i) ∈ written (events r) →
    ∃ N, N ∈ l ∧ p = output_path N ∧ Image_size i = (N, N).
Proof.
  intros Hrs. induction 1 as [| | |N l fs rz r R S _ IH]; cbn; intros p i Hin.
  1-3: by apply elem_of_nil in Hin.
  apply elem_of_cons in Hin as [[= -> ->]|Hin].
  - exists N. split_and!; [by left|done|by eapply Hrs].
  - destruct (IH _ _ Hin) as (N' & ? & ? & ?). exists N'. by split_and!; [right|..].
Qed.

(** A save touches the file at its path only, so when the paths of the
    rounds differ, whatever a round wrote is still there at the end. *)
Lemma rounds_files c l fs r :
  rounds c l fs r → NoDup (output_path <$> l) →
  (∀ q, q ∉ output_path <$> l → files r !! q = fs !! q) ∧
  (∀ p i, (p, i) ∈ written (events r) →
     p ∈ output_path <$> l ∧ files r !! p = Some (Image_encode "PNG" i)).
Proof.
  induction 1 as [| | |N l fs rz r R S _ IH]; cbn; intros ND.
  - split; [done|]. intros p i Hin. by apply elem_of_nil in Hin.
  - split; [done|]. intros p i Hin. by apply elem_of_nil in Hin.
  - split; [|intros p i Hin; by apply elem_of_nil in Hin].
    intros q [Hq _]%not_elem_of_cons. by apply lookup_partial_alter_ne.
  - apply NoDup_cons in ND as [Hfresh ND].
    destruct (IH ND) as [IHother IHw]. split.
    + intros q [Hq Hq']%not_elem_of_cons. rewrite IHother by done.
      by apply lookup_insert_ne.
    + intros p i [[= -> ->]|Hin]%elem_of_cons.
      * split; [by left|]. rewrite IHother by done. apply lookup_insert_eq.
      * destruct (IHw _ _ Hin). split; [by right|done].
Qed.

Lemma rounds_resize_args c l fs r :
  rounds c l fs r →
  Forall (λ x, x.1.1 = c ∧ x.2 = LANCZOS) (resize_calls (events r)).
Proof. induction 1; cbn; by repeat constructor. Qed.

Lemma rounds_first_resize c N l fs r :
  rounds c (N :: l) fs r →
  ∃ rest, resize_calls (events r) = (c, (N, N), LANCZOS) :: rest.
Proof. inversion 1; subst; cbn; eauto. Qed.

Lemma rounds_written_paths c l fs r :
  rounds c l fs r →
  (written (events r)).*1 `prefix_of` output_path <$> l ∧
  (outcome r = inr () → (written (events r)).*1 = output_path <$> l).
Proof.
  induction 1 as [| | |N l fs rz r R S _ [IHp IHs]]; cbn.
  - done.
  - split; [|done]. apply prefix_nil.
  - split; [|done]. apply prefix_nil.
  - split; [by apply prefix_cons|]. intros O. f_equal. by apply IHs.
Qed.

Lemma rounds_written_src c l fs r :
  rounds c l fs r →
  Forall (λ w, ∃ N, N ∈ l ∧ w.1 = output_path N ∧
                    Image_resize c (N, N) LANCZOS = inr w.2)
         (written (events r)).
Proof.
  induction 1 as [| | |N l fs rz r R S _ IH]; cbn; try by constructor.
  constructor.
  - exists N. by split_and!; [left|..].
  - eapply Forall_impl; [done|].
    intros w (N' & ? & ? & ?). exists N'. by split_and!; [right|..].
Qed.

Lemma rounds_save_calls c l fs r :
  rounds c l fs r → outcome r = inr () →
  save_calls (events r) = (λ w, (w.2, w.1, "PNG")) <$> written (events r).
Proof.
  induction 1 as [| | |N l fs rz r R S _ IH]; cbn; try done.
  intros O. f_equal. by apply IH.
Qed.

(** The loop prints no line that looks like the error line. *)
Lemma rounds_no_error_line fs c r :
  rounds c sizes fs r →
  List.filter (String.prefix "Error: ") (stdout (events r)) = [].
Proof.
  intros R. destruct (rounds_stdout _ _ _ _ R) as [[k Hk] _].
  rewrite generated_lines in Hk. apply filter_none.
  assert (Forall (λ s, String.prefix "Error: " s = false)
            (stdout (events r) ++ k)) as Hall
    by (rewrite <- Hk; by repeat constructor).
  by apply Forall_app in Hall as [? _].
Qed.

Lemma rounds_close_calls c l fs r : rounds c l fs r → close_calls (events r) = [].
Proof. by induction 1. Qed.

Lemma rounds_frame c l fs r :
  rounds c l fs r →
  ∀ q, q ∉ save_paths (events r) → files r !! q = fs !! q.
Proof.
  induction 1 as [| | |N l fs rz r R S _ IH]; cbn; intros q Hq; try done.
  - apply not_elem_of_cons in Hq as [Hq _]. by apply lookup_partial_alter_ne.
  - apply not_elem_of_cons in Hq as [Hq Hq'].
    rewrite IH by done. by apply lookup_insert_ne.
Qed.

Lemma rounds_save_targets c l fs r :
  rounds c l fs r →
  Forall (λ x, x.1.2 ∈ output_path <$> l ∧ x.2 = "PNG") (save_calls (events r)).
Proof.
  induction 1 as [| | |N l fs rz r R S _ IH]; cbn; try by constructor.
  - constructor; [|done]. split; [by left|done].
  - constructor; [split; [by left|done]|].
    eapply Forall_impl; [done|]. intros x [? ?]. split; [by right|done].
Qed.

Lemma rounds_generated c l fs r :
  rounds c l fs r →
  stdout (events r) = (λ w, "Generated: " +:+ w.1) <$> written (events r).
Proof. induction 1; cbn; by f_equal. Qed.

Lemma rounds_success_files c l fs r :
  rounds c l fs r → outcome r = inr () →
  files r = foldl (λ m w, <[w.1 := Image_encode "PNG" w.2]> m) fs
                  (written (events r)).
Proof. induction 1; cbn; auto; done. Qed.

End Rounds.

(** ** The geometry of the crop box *)

Section Geometry.
Local Open Scope Qc_scope.

Lemma truediv_0 : truediv 0 2 = 0.
Proof. by apply Qc_is_canon. Qed.

Lemma Qc_of_Z_halves n : Qc_of_Z n = truediv (2 * n) 2.
Proof. by rewrite truediv_double. Qed.

(** No square inside a [W] by [H] image is wider than [min W H]. *)
Lemma square_fits (W H : Z) (a0 b0 a1 b1 : Qc) :
  0 ≤ a0 → a1 ≤ Qc_of_Z W → 0 ≤ b0 → b1 ≤ Qc_of_Z H → a1 - a0 = b1 - b0 →
  a1 - a0 ≤ Qc_of_Z (Z.min W H).
Proof.
  intros Ha0 Ha1 Hb0 Hb1 E.
  assert (∀ x y z : Qc, 0 ≤ x → y ≤ z → y - x ≤ z) as sub_le.
  { intros x y z Hx Hy. rewrite <- (Qcplus_0_r z).
    unfold Qcminus. apply Qcplus_le_compat; [done|].
    by apply Qcopp_le_compat in Hx. }
  destruct (Z.min_spec W H) as [[_ ->]|[_ ->]].
  - by apply sub_le.
  - rewrite E. by apply sub_le.
Qed.

Lemma odd_excess (W H : Z) :
  Z.odd (W - Z.min W H) || Z.odd (H - Z.min W H)
  || Z.odd (W + Z.min W H) || Z.odd (H + Z.min W H)
  = Z.odd (Z.max W H - Z.min W H).
Proof.
  destruct (Z.min_spec W H) as [[? ->]|[? ->]];
    [rewrite Z.max_r by lia|rewrite Z.max_l by lia];
    rewrite ?Z.sub_diag, !Z.odd_add, !Z.odd_sub;
    by destruct (Z.odd W), (Z.odd H).
Qed.

Lemma crop_box_formula (W H : Z) :
  let w := Qc_of_Z W in
  let h := Qc_of_Z H in
  let new_size := Qc_of_Z (Z.min W H) in
  crop_box W H =
  ((w - new_size) / 2, (h - new_size) / 2,
   (w + new_size) / 2, (h + new_size) / 2).
Proof.
  unfold crop_box. cbv zeta.
  by rewrite !truediv_2, !Z2Qc_inj_sub, !Z2Qc_inj_add.
Qed.

Lemma crop_box_400_300 :
  crop_box 400 300 = (Qc_of_Z 50, Qc_of_Z 0, Qc_of_Z 350, Qc_of_Z 300).
Proof. unfold crop_box. cbv zeta. repeat f_equal; by apply Qc_is_canon. Qed.

Lemma crop_box_square (S : Z) :
  crop_box S S = (Qc_of_Z 0, Qc_of_Z 0, Qc_of_Z S, Qc_of_Z S).
Proof.
  unfold crop_box. cbv zeta. rewrite Z.min_id, Z.sub_diag.
  replace (S + S)%Z with (2 * S)%Z by lia.
  rewrite truediv_double. change 0%Z with (2 * 0)%Z at 1 2.
  by rewrite truediv_double.
Qed.

(** C2: the computed crop region is the largest centred square of the
    image.  Its edge is [min W H] on each axis, the margins on opposing
    sides are equal (exactly, before any rounding), and when the image has
    a size ([0 ≤ W], [0 ≤ H]) the box lies inside the image and no square
    inside the image has a longer edge. *)
Theorem crop_box_largest_centered_square (W H : Z) :
  let '(x0, y0, x1, y1) := crop_box W H in
  let n := Qc_of_Z (Z.min W H) in
  (x1 - x0 = n ∧ y1 - y0 = n) ∧
  (x0 - 0 = Qc_of_Z W - x1 ∧ y0 - 0 = Qc_of_Z H - y1) ∧
  ((0 ≤ W)%Z → (0 ≤ H)%Z →
    (0 ≤ x0 ∧ x1 ≤ Qc_of_Z W ∧ 0 ≤ y0 ∧ y1 ≤ Qc_of_Z H) ∧
    ∀ a0 b0 a1 b1 : Qc,
      0 ≤ a0 → a1 ≤ Qc_of_Z W → 0 ≤ b0 → b1 ≤ Qc_of_Z H →
      a1 - a0 = b1 - b0 → a1 - a0 ≤ n).
Proof.
  unfold crop_box. cbv zeta.
  rewrite !(Qc_of_Z_halves W), !(Qc_of_Z_halves H),
    !(Qc_of_Z_halves (Z.min _ _)).
  rewrite <- truediv_0, !truediv_sub.
  repeat split; try (f_equal; lia);
    try (apply (proj1 (truediv_le _ _)); lia).
  intros a0 b0 a1 b1. rewrite truediv_0, <- !Qc_of_Z_halves.
  apply square_fits.
Qed.

(** C8: for an image of width and height at least 1 the crop box is well
    formed and inside the image, [0 ≤ left ≤ right ≤ width] and
    [0 ≤ top ≤ bottom ≤ height]; its width and its height are exactly
    [min width height]; and it has a fractional coordinate exactly when the
    excess of the longer side over the shorter one is odd. *)
Theorem crop_box_well_formed (W H : Z) :
  (1 ≤ W)%Z → (1 ≤ H)%Z →
  let '(x0, y0, x1, y1) := crop_box W H in
  (0 ≤ x0 ∧ x0 ≤ x1 ∧ x1 ≤ Qc_of_Z W) ∧
  (0 ≤ y0 ∧ y0 ≤ y1 ∧ y1 ≤ Qc_of_Z H) ∧
  x1 - x0 = Qc_of_Z (Z.min W H) ∧
  y1 - y0 = Qc_of_Z (Z.min W H) ∧
  fractional x0 || fractional y0 || fractional x1 || fractional y1
  = Z.odd (Z.max W H - Z.min W H).
Proof.
  intros HW HH. unfold crop_box. cbv zeta.
  rewrite !fractional_truediv, odd_excess.
  rewrite !(Qc_of_Z_halves W), !(Qc_of_Z_halves H),
    !(Qc_of_Z_halves (Z.min _ _)).
  rewrite <- truediv_0, !truediv_sub.
  repeat split; try (f_equal; lia);
    apply (proj1 (truediv_le _ _)); lia.
Qed.

(** X9: the shorter side is kept whole.  For a landscape image
    ([H ≤ W]) the box runs from top 0 to bottom [H] and is [H] wide; for a
    portrait image ([W ≤ H]) it runs from left 0 to right [W] and is [W]
    high. *)
Theorem shorter_side_kept_whole (W H : Z) :
  let '(x0, y0, x1, y1) := crop_box W H in
  ((H ≤ W)%Z → y0 = Qc_of_Z 0 ∧ y1 = Qc_of_Z H ∧ x1 - x0 = Qc_of_Z H) ∧
  ((W ≤ H)%Z → x0 = Qc_of_Z 0 ∧ x1 = Qc_of_Z W ∧ y1 - y0 = Qc_of_Z W).
Proof.
  unfold crop_box. cbv zeta. rewrite !truediv_sub.
  split; intros Hle;
    [rewrite Z.min_r by done|rewrite Z.min_l by done];
    rewrite Z.sub_diag, !(Qc_of_Z_halves); split_and!; f_equal; lia.
Qed.
End Geometry.

(** ** The script as a whole *)

Section Script.
Context `{PIL : Imaging}.
Implicit Types (fs : gmap string File) (img c : Img) (r : Run unit).

Lemma main_cases fs : main_run_cases fs.
Proof.
  pose proof (main_run fs) as Hm. pose proof (script_body_run fs) as Hb.
  inversion Hb
    as [e E B|img W H e E S C B|img W H c r E S C R B];
    rewrite <- B in Hm; cbn in Hm.
  - by eapply main_open_failed.
  - by eapply main_crop_failed.
  - eapply main_cropped; [done..|].
    rewrite Hm. unfold finish.
    destruct (outcome r) as [e|[]]; cbn; [|done].
    by rewrite <- !app_assoc.
Qed.

(** *** Projections of a finished run *)

Lemma finish_crop_calls fs img W H c r :
  rounds c sizes fs r →
  crop_calls (events (finish img W H r)) = [(img, crop_box W H)].
Proof.
  intros R. unfold finish, crop_calls. cbn. rewrite omap_app.
  fold (crop_calls (events r)). rewrite (rounds_crop_calls _ _ _ _ R).
  by destruct (outcome r).
Qed.

Lemma finish_resize_calls img W H r :
  resize_calls (events (finish img W H r)) = resize_calls (events r).
Proof.
  unfold finish, resize_calls. cbn. rewrite omap_app.
  destruct (outcome r); cbn; by rewrite app_nil_r.
Qed.

Lemma finish_written img W H r :
  written (events (finish img W H r)) = written (events r).
Proof.
  unfold finish, written. cbn. rewrite omap_app.
  destruct (outcome r); cbn; by rewrite app_nil_r.
Qed.

Lemma finish_save_calls img W H r :
  save_calls (events (finish img W H r)) = save_calls (events r).
Proof.
  unfold finish, save_calls. cbn. rewrite omap_app.
  destruct (outcome r); cbn; by rewrite app_nil_r.
Qed.

Lemma finish_stdout img W H r :
  stdout (events (finish img W H r)) =
  stdout (events r) ++
  match outcome r with
  | inl e => ["Error: " +:+ exn_str e]
  | inr _ => []
  end.
Proof.
  unfold finish, stdout. cbn. rewrite omap_app. by destruct (outcome r).
Qed.

Lemma finish_from_failure fs img W H c r e :
  rounds c sizes fs r → outcome r = inl e →
  ∃ k, from_failure (events (finish img W H r)) =
       [Failed k e; Did (CClose img); Did (CPrint ("Error: " +:+ exn_str e))].
Proof.
  intros R O. pose proof (rounds_failure _ _ _ _ R) as F.
  unfold finish. cbn. rewrite O in *. destruct F as [k F]. exists k.
  by rewrite from_failure_app, F.
Qed.

Lemma main_crop_calls fs img W H :
  Image_open input_path fs = inr img → Image_size img = (W, H) →
  crop_calls (events (main fs)) = [(img, crop_box W H)].
Proof.
  intros E S.
  destruct (main_cases fs) as [e E' _ _|img' W' H' e E' S' C _ Hm
                              |img' W' H' c r E' S' C R _ Hm];
    [congruence|..]; rewrite Hm;
    assert (img' = img) as -> by congruence;
    assert (W' = W ∧ H' = H) as [-> ->] by (split; congruence).
  - done.
  - by eapply finish_crop_calls.
Qed.

Local Open Scope Qc_scope.

(** C1: when the image opens with width [W] and height [H], [crop] is
    called once, on that image, with the box
    [((W - n) / 2, (H - n) / 2, (W + n) / 2, (H + n) / 2)] where
    [n = min W H]; for a 400 by 300 image the box is left 50, top 0,
    right 350, bottom 300. *)
Theorem crop_call_box fs img W H :
  Image_open input_path fs = inr img → Image_size img = (W, H) →
  let w := Qc_of_Z W in
  let h := Qc_of_Z H in
  let new_size := Qc_of_Z (Z.min W H) in
  crop_calls (events (main fs)) =
    [(img, ((w - new_size) / 2, (h - new_size) / 2,
            (w + new_size) / 2, (h + new_size) / 2))] ∧
  (W = 400%Z → H = 300%Z →
   crop_calls (events (main fs)) =
     [(img, (Qc_of_Z 50, Qc_of_Z 0, Qc_of_Z 350, Qc_of_Z 300))]).
Proof.
  intros E S. cbv zeta. rewrite (main_crop_calls _ _ _ _ E S). split.
  - by rewrite crop_box_formula.
  - intros -> ->. by rewrite crop_box_400_300.
Qed.

(** C6: for a square image of size [S] by [S] the box handed to [crop] is
    the whole image, [(0, 0, S, S)]; so with a library whose [crop] returns
    the image when asked for its full extent, the crop is a no-op and the
    resizes read the original image. *)
Theorem square_crop_is_whole_image fs img S :
  Image_open input_path fs = inr img → Image_size img = (S, S) →
  crop_calls (events (main fs)) =
    [(img, (Qc_of_Z 0, Qc_of_Z 0, Qc_of_Z S, Qc_of_Z S))] ∧
  (crop_full →
   ∃ rest, resize_calls (events (main fs)) = (img, (16, 16)%Z, LANCZOS) :: rest ∧
           Forall (λ x, x.1.1 = img) rest).
Proof.
  intros E Sz. split.
  { by rewrite (main_crop_calls _ _ _ _ E Sz), crop_box_square. }
  intros Hfull. specialize (Hfull _ _ _ Sz). rewrite <- crop_box_square in Hfull.
  destruct (main_cases fs) as [e E' _ _|img' W' H' e E' S' C _ Hm
                              |img' W' H' c r E' S' C R _ Hm];
    [congruence|..];
    assert (img' = img) as -> by congruence;
    assert (W' = S ∧ H' = S) as [-> ->] by (split; congruence);
    [congruence|].
  assert (c = img) as -> by congruence.
  rewrite Hm, finish_resize_calls.
  destruct (rounds_first_resize _ _ _ _ _ R) as [rest Hrest].
  pose proof (rounds_resize_args _ _ _ _ R) as Hall.
  rewrite Hrest in Hall. apply Forall_cons in Hall as [_ Hall].
  exists rest. split; [done|].
  eapply Forall_impl; [done|]. by intros x [? _].
Qed.

(** C5: when opening the input fails, the run leaves the file system as
    it was (no file is written, the files that were there are unchanged),
    no [save] is even attempted, and the one line printed is the error
    message. *)
Theorem missing_input_writes_nothing fs e :
  Image_open input_path fs = inl e →
  outcome (main fs) = inr () ∧
  files (main fs) = fs ∧
  save_calls (events (main fs)) = [] ∧
  stdout (events (main fs)) = ["Error: " +:+ exn_str e].
Proof.
  intros E.
  destruct (main_cases fs) as [e' E' _ Hm|img' W' H' e' E' _ _ _ _
                              |img' W' H' c r E' _ _ _ _ _];
    [|congruence..].
  assert (e' = e) as -> by congruence. by rewrite Hm.
Qed.

(** C4: whatever step of the body raises, [main] itself returns normally
    (the exception is caught and not raised again); from the failing call
    on the run consists of that call, the closing of the image if one was
    opened, and the line [Error: <message>], so nothing is retried;
    exactly one error line is printed; the handler leaves the files as the
    body left them, and every file a [save] wrote before the failure is
    still there with the content written. *)
Theorem failure_is_caught_once fs e :
  outcome (script_body fs) = inl e →
  outcome (main fs) = inr () ∧
  (∃ k closing,
     from_failure (events (main fs)) =
       Failed k e :: closing ++ [Did (CPrint ("Error: " +:+ exn_str e))] ∧
     (closing = [] ∨ ∃ img, closing = [Did (CClose img)])) ∧
  List.filter (String.prefix "Error: ") (stdout (events (main fs))) =
    ["Error: " +:+ exn_str e] ∧
  files (main fs) = files (script_body fs) ∧
  (∀ p i, (p, i) ∈ written (events (main fs)) →
     files (main fs) !! p = Some (Image_encode "PNG" i)).
Proof.
  intros O.
  destruct (main_cases fs) as [e' E' B Hm|img W H e' E' S C B Hm
                              |img W H c r E' S C R B Hm];
    rewrite B in O |- *; rewrite Hm; cbn in O.
  - injection O as ->. split_and!; try done.
    + exists (COpen input_path), []. split; [done|by left].
    + apply filter_error_line.
    + intros p i Hin. by apply elem_of_nil in Hin.
  - injection O as ->. split_and!; try done.
    + exists (CCrop img (crop_box W H)), [Did (CClose img)].
      split; [done|right; by exists img].
    + apply filter_error_line.
    + intros p i Hin. by apply elem_of_nil in Hin.
  - split_and!; try done.
    + destruct (finish_from_failure _ img W H _ _ _ R O) as [k F].
      exists k, [Did (CClose img)]. split; [done|right; by exists img].
    + rewrite finish_stdout, O, List.filter_app, (rounds_no_error_line _ _ _ R).
      apply filter_error_line.
    + rewrite finish_written. intros p i Hin.
      by apply (rounds_files _ _ _ _ R output_paths_NoDup).
Qed.

(** C3: when the body completes, for each size [N] of 16, 48, 128 the run
    has saved, as PNG, an image to [public/icon<N>.png]; that file holds the
    PNG encoding of this image, whose size is [N] by [N] (given that
    [resize] returns the size it was asked for); and the console shows one
    [Generated: <path>] line per file. *)
Theorem icons_written fs :
  resize_exact → outcome (script_body fs) = inr () →
  ∃ icon16 icon48 icon128,
    (Image_size icon16 = (16, 16) ∧ Image_size icon48 = (48, 48) ∧
     Image_size icon128 = (128, 128)) ∧
    save_calls (events (main fs)) =
      [(icon16, "public/icon16.png", "PNG"); (icon48, "public/icon48.png", "PNG");
       (icon128, "public/icon128.png", "PNG")] ∧
    written (events (main fs)) =
      [("public/icon16.png", icon16); ("public/icon48.png", icon48);
       ("public/icon128.png", icon128)] ∧
    (files (main fs) !! "public/icon16.png" = Some (Image_encode "PNG" icon16) ∧
     files (main fs) !! "public/icon48.png" = Some (Image_encode "PNG" icon48) ∧
     files (main fs) !! "public/icon128.png" = Some (Image_encode "PNG" icon128)) ∧
    stdout (events (main fs)) =
      ["Generated: public/icon16.png"; "Generated: public/icon48.png";
       "Generated: public/icon128.png"].
Proof.
  intros Hrs O.
  destruct (main_cases fs) as [e' E' B Hm|img W H e' E' S C B Hm
                              |img W H c r E' S C R B Hm];
    rewrite B in O; cbn in O; [done..|].
  rewrite Hm, finish_save_calls, finish_written, finish_stdout, O, app_nil_r.
  rewrite (rounds_save_calls _ _ _ _ R O).
  destruct (rounds_stdout _ _ _ _ R) as [_ Hs]. rewrite (Hs O), generated_lines.
  destruct (rounds_files _ _ _ _ R output_paths_NoDup) as [_ Hfiles].
  destruct (rounds_written _ _ _ _ R) as (l1 & l2 & Hl & Hw & Hl2).
  rewrite (Hl2 O), app_nil_r in Hl. subst l1. unfold sizes in Hw.
  apply Forall2_cons_inv_l in Hw as ([p16 icon16] & ? & [P16 R16] & Hw & Hw1).
  apply Forall2_cons_inv_l in Hw as ([p48 icon48] & ? & [P48 R48] & Hw & ->).
  apply Forall2_cons_inv_l in Hw as ([p128 icon128] & ? & [P128 R128] & Hw & ->).
  apply Forall2_nil_inv_l in Hw as ->.
  cbn in P16, P48, P128, R16, R48, R128.
  vm_compute in P16, P48, P128. subst p16 p48 p128.
  rewrite Hw1 in *. exists icon16, icon48, icon128.
  split_and!; try done; try (by eapply Hrs);
    apply Hfiles; rewrite !elem_of_cons; auto.
Qed.

Lemma main_written_sizes fs p i :
  resize_exact → (p, i) ∈ written (events (main fs)) →
  ∃ N, N ∈ sizes ∧ p = output_path N ∧ Image_size i = (N, N).
Proof.
  intros Hrs.
  destruct (main_cases fs) as [e' E' B Hm|img W H e' E' S C B Hm
                              |img W H c r E' S C R B Hm];
    rewrite Hm; [by intros ?%elem_of_nil..|].
  rewrite finish_written. by eapply rounds_written_sizes.
Qed.

(** C7: two runs whose input images have the same size, on any two file
    systems, call [crop] with the same box, and whenever both write a file
    at the same path the two images written have the same pixel
    dimensions. *)
Theorem runs_agree fs1 fs2 img1 img2 :
  resize_exact →
  Image_open input_path fs1 = inr img1 →
  Image_open input_path fs2 = inr img2 →
  Image_size img1 = Image_size img2 →
  (∃ box, crop_calls (events (main fs1)) = [(img1, box)] ∧
          crop_calls (events (main fs2)) = [(img2, box)]) ∧
  (∀ p a b,
     (p, a) ∈ written (events (main fs1)) →
     (p, b) ∈ written (events (main fs2)) →
     Image_size a = Image_size b).
Proof.
  intros Hrs E1 E2 Hsize. split.
  - destruct (Image_size img1) as [W H] eqn:S1. symmetry in Hsize.
    exists (crop_box W H).
    by rewrite (main_crop_calls _ _ _ _ E1 S1), (main_crop_calls _ _ _ _ E2 Hsize).
  - intros p a b Ha Hb.
    destruct (main_written_sizes _ _ _ Hrs Ha) as (N & HN & -> & ->).
    destruct (main_written_sizes _ _ _ Hrs Hb) as (N' & HN' & Hp & ->).
    by rewrite (output_path_inj _ _ HN HN' Hp).
Qed.

(** C10: every call to [resize], in every run, passes the Lanczos filter,
    and a run that completes makes exactly the three calls for 16, 48
    and 128. *)
Theorem resize_uses_lanczos fs :
  Forall (λ x, x.2 = LANCZOS) (resize_calls (events (main fs))) ∧
  (outcome (script_body fs) = inr () →
   (λ x, (x.1.2, x.2)) <$> resize_calls (events (main fs)) =
     [((16, 16), LANCZOS); ((48, 48), LANCZOS); ((128, 128), LANCZOS)]).
Proof.
  destruct (main_cases fs) as [e' E' B Hm|img W H e' E' S C B Hm
                              |img W H c r E' S C R B Hm];
    rewrite B, Hm; cbn [outcome]; [by split..|].
  rewrite finish_resize_calls. split.
  - eapply Forall_impl; [by eapply rounds_resize_args|]. by intros x [_ ?].
  - intros O. destruct (rounds_resize_calls _ _ _ _ R) as [_ Hr].
    by rewrite (Hr O).
Qed.

(** C9: the sizes are in strictly increasing order, and in every run the
    files written and the [Generated:] lines printed follow that order
    (they are an initial part of the lists for 16, 48, 128, and the whole
    lists when the body completes); every resize reads the one cropped
    image, and every file written holds such a resize, never a resize of
    an earlier result. *)
Theorem rounds_in_increasing_order fs :
  StronglySorted Z.lt sizes ∧
  (written (events (main fs))).*1 `prefix_of`
    ["public/icon16.png"; "public/icon48.png"; "public/icon128.png"] ∧
  (∃ generated error,
     stdout (events (main fs)) = generated ++ error ∧
     generated `prefix_of`
       ["Generated: public/icon16.png"; "Generated: public/icon48.png";
        "Generated: public/icon128.png"] ∧
     (error = [] ∨ ∃ e, error = ["Error: " +:+ exn_str e])) ∧
  (∀ img W H c,
     Image_open input_path fs = inr img → Image_size img = (W, H) →
     Image_crop img (crop_box W H) = inr c →
     resize_calls (events (main fs)) `prefix_of`
       [(c, (16, 16), LANCZOS); (c, (48, 48), LANCZOS);
        (c, (128, 128), LANCZOS)] ∧
     Forall (λ w, ∃ N, N ∈ sizes ∧ w.1 = output_path N ∧
                       Image_resize c (N, N) LANCZOS = inr w.2)
            (written (events (main fs)))) ∧
  (outcome (script_body fs) = inr () →
   (written (events (main fs))).*1 =
     ["public/icon16.png"; "public/icon48.png"; "public/icon128.png"] ∧
   stdout (events (main fs)) =
     ["Generated: public/icon16.png"; "Generated: public/icon48.png";
      "Generated: public/icon128.png"]).
Proof.
  split; [repeat constructor; lia|].
  rewrite <- output_paths, <- generated_lines.
  destruct (main_cases fs) as [e' E' B Hm|img W H e' E' S C B Hm
                              |img W H c r E' S C R B Hm];
    rewrite B, Hm; cbn [outcome].
  - split_and!; [apply prefix_nil| |congruence|done].
    exists [], ["Error: " +:+ exn_str e']. split_and!; [done|apply prefix_nil|eauto].
  - split_and!; [apply prefix_nil| |congruence|done].
    exists [], ["Error: " +:+ exn_str e']. split_and!; [done|apply prefix_nil|eauto].
  - rewrite finish_written, finish_stdout, finish_resize_calls.
    destruct (rounds_written_paths _ _ _ _ R) as [Hwp Hws].
    destruct (rounds_stdout _ _ _ _ R) as [Hsp Hss].
    split_and!.
    + done.
    + eexists _, _. split_and!; [done..|]. destruct (outcome r); eauto.
    + intros img' W' H' c' E'' S'' C''.
      assert (img' = img) as -> by congruence.
      assert (W' = W ∧ H' = H) as [-> ->] by (split; congruence).
      assert (c' = c) as -> by congruence.
      split; [apply (rounds_resize_calls _ _ _ _ R)|by eapply rounds_written_src].
    + intros O. rewrite O, app_nil_r. auto.
Qed.

End Script.

(** ** Further properties of the runs *)

Section Extra.
Context `{PIL : Imaging}.
Implicit Types (fs : gmap string File) (img c : Img) (r : Run unit).

Lemma finish_files img W H r : files (finish img W H r) = files r.
Proof. done. Qed.

Lemma finish_events img W H r :
  events (finish img W H r) =
  (Did (COpen input_path) :: Did (CCrop img (crop_box W H)) :: events r) ++
  Did (CClose img) ::
  match outcome r with
  | inl e => [Did (CPrint ("Error: " +:+ exn_str e))]
  | inr _ => []
  end.
Proof. done. Qed.

(** X1: a run changes the file system only where it called [save], and
    it calls [save] only in PNG format on [public/icon16.png],
    [public/icon48.png] and [public/icon128.png].  So a path no [save] was
    attempted on, and in particular every path other than these three (the
    input file among them), holds after the run what it held before,
    whether the run completed or failed. *)
Theorem only_icons_are_touched fs :
  (∀ q, q ∉ save_paths (events (main fs)) → files (main fs) !! q = fs !! q) ∧
  Forall (λ x, x.1.2 ∈ ["public/icon16.png"; "public/icon48.png";
                        "public/icon128.png"] ∧ x.2 = "PNG")
         (save_calls (events (main fs))) ∧
  (∀ q, q ∉ ["public/icon16.png"; "public/icon48.png"; "public/icon128.png"] →
        files (main fs) !! q = fs !! q).
Proof.
  assert (∀ q, q ∉ save_paths (events (main fs)) →
               files (main fs) !! q = fs !! q) as Hframe.
  { intros q.
    destruct (main_cases fs) as [e' E' B Hm|img W H e' E' S C B Hm
                                |img W H c r E' S C R B Hm];
      rewrite Hm; [done..|].
    unfold save_paths. rewrite finish_save_calls, finish_files.
    by eapply rounds_frame. }
  assert (Forall (λ x, x.1.2 ∈ ["public/icon16.png"; "public/icon48.png";
                                "public/icon128.png"] ∧ x.2 = "PNG")
                 (save_calls (events (main fs)))) as Hsaves.
  { rewrite <- output_paths.
    destruct (main_cases fs) as [e' E' B Hm|img W H e' E' S C B Hm
                                |img W H c r E' S C R B Hm];
      rewrite Hm; [by constructor..|].
    rewrite finish_save_calls. by eapply rounds_save_targets. }
  split_and!; [done..|]. intros q Hq. apply Hframe.
  unfold save_paths. intros (x & -> & Hx)%list_elem_of_fmap.
  rewrite Forall_forall in Hsaves. by destruct (Hsaves _ Hx).
Qed.

(** X2: the image is closed exactly when it was opened.  If the open
    raises there is no close; if it returns an image, that image is closed
    once, after every other library call of the run, and only the error
    line can follow the close. *)
Theorem image_closed_once fs :
  (∀ e, Image_open input_path fs = inl e →
        close_calls (events (main fs)) = []) ∧
  (∀ img, Image_open input_path fs = inr img →
     ∃ pre post,
       events (main fs) = pre ++ Did (CClose img) :: post ∧
       close_calls pre = [] ∧
       (post = [] ∨ ∃ e, post = [Did (CPrint ("Error: " +:+ exn_str e))])).
Proof.
  destruct (main_cases fs) as [e' E' B Hm|img W H e' E' S C B Hm
                              |img W H c r E' S C R B Hm];
    rewrite Hm; (split; [intros e E|intros img' E]); try congruence.
  - done.
  - assert (img' = img) as -> by congruence.
    exists [Did (COpen input_path); Failed (CCrop img (crop_box W H)) e'],
      [Did (CPrint ("Error: " +:+ exn_str e'))]. split_and!; eauto.
  - assert (img' = img) as -> by congruence. rewrite finish_events.
    eexists _, _. split_and!; [done| |destruct (outcome r); eauto].
    cbn. by eapply rounds_close_calls.
Qed.

(** X3: when the image opens but [crop] raises (the file cannot be
    decoded), nothing is resized or saved, the file system is unchanged,
    the image is still closed, and the one line printed is the error. *)
Theorem crop_failure_writes_nothing fs img W H e :
  Image_open input_path fs = inr img → Image_size img = (W, H) →
  Image_crop img (crop_box W H) = inl e →
  files (main fs) = fs ∧
  resize_calls (events (main fs)) = [] ∧
  save_calls (events (main fs)) = [] ∧
  close_calls (events (main fs)) = [img] ∧
  stdout (events (main fs)) = ["Error: " +:+ exn_str e].
Proof.
  intros E S C.
  destruct (main_cases fs) as [e' E' B Hm|img' W' H' e' E' S' C' B Hm
                              |img' W' H' c r E' S' C' R B Hm];
    [congruence|..];
    assert (img' = img) as -> by congruence;
    assert (W' = W ∧ H' = H) as [-> ->] by (split; congruence);
    [|congruence].
  assert (e' = e) as -> by congruence. by rewrite Hm.
Qed.

(** X4: in every run the console is one [Generated: <path>] line for each
    file written, in the order written, followed by the error line exactly
    when the body raised: no file is reported that was not written, and
    none is written without being reported. *)
Theorem generated_lines_match_written fs :
  stdout (events (main fs)) =
  ((λ w, "Generated: " +:+ w.1) <$> written (events (main fs))) ++
  match outcome (script_body fs) with
  | inl e => ["Error: " +:+ exn_str e]
  | inr _ => []
  end.
Proof.
  destruct (main_cases fs) as [e' E' B Hm|img W H e' E' S C B Hm
                              |img W H c r E' S C R B Hm];
    rewrite B, Hm; [done..|].
  rewrite finish_stdout, finish_written. cbn [outcome].
  by rewrite (rounds_generated _ _ _ _ R).
Qed.

(** X5: [main] never raises, and the console tells the two outcomes
    apart: no line starts with [Error: ] exactly when the body
    completed. *)
Theorem error_line_iff_raised fs :
  outcome (main fs) = inr () ∧
  (List.filter (String.prefix "Error: ") (stdout (events (main fs))) = [] ↔
   outcome (script_body fs) = inr ()).
Proof.
  destruct (main_cases fs) as [e' E' B Hm|img W H e' E' S C B Hm
                              |img W H c r E' S C R B Hm];
    rewrite B, Hm; cbn [outcome finish]; (split; [done|]).
  - cbn [events stdout omap list_omap]. by rewrite filter_error_line.
  - cbn [events stdout omap list_omap]. by rewrite filter_error_line.
  - rewrite finish_stdout, List.filter_app, (rounds_no_error_line _ _ _ R).
    destruct (outcome r) as [e|[]]; [|done].
    by rewrite filter_error_line.
Qed.

(** X7: when the body completes, the file system is the initial one with
    the three icons stored at their paths, replacing whatever was there,
    and nothing else added, removed or changed. *)
Theorem success_overwrites_icons fs :
  outcome (script_body fs) = inr () →
  (written (events (main fs))).*1 =
    ["public/icon16.png"; "public/icon48.png"; "public/icon128.png"] ∧
  files (main fs) =
    foldl (λ m w, <[w.1 := Image_encode "PNG" w.2]> m) fs
          (written (events (main fs))).
Proof.
  intros O.
  destruct (main_cases fs) as [e' E' B Hm|img W H e' E' S C B Hm
                              |img W H c r E' S C R B Hm];
    rewrite B in O; cbn in O; [done..|].
  rewrite Hm, finish_written, finish_files, <- output_paths. split.
  - by apply (rounds_written_paths _ _ _ _ R).
  - by eapply rounds_success_files.
Qed.

(** X8: the loop on any list of distinct sizes: every file a round
    wrote is still there with its content when the loop ends or fails, and
    paths that belong to no size of the list are unchanged. *)
Theorem loop_keeps_written_files c (l : list Z) fs :
  NoDup l →
  let r := for_each l (icon c) fs in
  (∀ p i, (p, i) ∈ written (events r) →
          files r !! p = Some (Image_encode "PNG" i)) ∧
  (∀ q, q ∉ output_path <$> l → files r !! q = fs !! q).
Proof.
  intros ND r.
  assert (NoDup (output_path <$> l)) as NDp.
  { apply NoDup_fmap_2; [|done]. intros N N'. apply output_path_cancel. }
  destruct (rounds_files _ _ _ _ (for_each_rounds c l fs) NDp) as [Hother Hw].
  split; [|done]. intros p i Hin. by destruct (Hw _ _ Hin).
Qed.

End Extra.

(** ** The small back end: it meets what is expected of the library, and
    the theorems above apply to its runs *)

(** Two runs, evaluated: the photograph alone, and the photograph next
    to a write-protected [icon48.png]. *)

Example photo_run :
  stdout (events (@main Dims.lib Dims.photo)) =
    ["Generated: public/icon16.png"; "Generated: public/icon48.png";
     "Generated: public/icon128.png"] ∧
  written (events (@main Dims.lib Dims.photo)) =
    [("public/icon16.png", (16, 16)); ("public/icon48.png", (48, 48));
     ("public/icon128.png", (128, 128))] ∧
  resize_calls (events (@main Dims.lib Dims.photo)) =
    [((300, 300), (16, 16), LANCZOS); ((300, 300), (48, 48), LANCZOS);
     ((300, 300), (128, 128), LANCZOS)].
Proof. by vm_compute. Qed.

Example protected_run :
  stdout (events (@main Dims.lib Dims.protected)) =
    ["Generated: public/icon16.png";
     "Error: Permission denied: public/icon48.png"] ∧
  files (@main Dims.lib Dims.protected) !! "public/icon16.png" =
    Some (Dims.MkFile "PNG" (16, 16) false) ∧
  files (@main Dims.lib Dims.protected) !! "public/icon48.png" =
    Some (Dims.MkFile "PNG" (1, 1) true) ∧
  files (@main Dims.lib Dims.protected) !! "public/icon128.png" = None.
Proof. by vm_compute. Qed.

Example round_ties :
  Dims.round (truediv 1 2) = 0 ∧ Dims.round (truediv 3 2) = 2 ∧
  Dims.round (truediv 5 2) = 2 ∧ Dims.round (truediv 6 2) = 3.
Proof. by vm_compute. Qed.

Lemma dims_round_whole (n : Z) : Dims.round (Qc_of_Z n) = n.
Proof.
  unfold Dims.round. cbn [this Qc_of_Z]. rewrite Qfloor_Z.
  replace (Qc_of_Z n - Qc_of_Z n)%Qc with 0%Qc by ring. done.
Qed.

Lemma dims_resize_exact : @resize_exact Dims.lib.
Proof. by intros img size resample r [= <-]. Qed.

Lemma dims_crop_full : @crop_full Dims.lib.
Proof.
  intros img W H E. cbn in *. rewrite !dims_round_whole, !Z.sub_0_r. by rewrite E.
Qed.

Lemma crop_call_box_witness :
  crop_calls (events (@main Dims.lib Dims.photo)) =
  [((400, 300), (Qc_of_Z 50, Qc_of_Z 0, Qc_of_Z 350, Qc_of_Z 300))].
Proof.
  apply (crop_call_box (PIL := Dims.lib) Dims.photo (400, 300) 400 300);
    reflexivity.
Defined.

Lemma crop_box_largest_centered_square_witness :
  let '(x0, y0, x1, y1) := crop_box 5 2 in
  (0 ≤ x0 ∧ x1 ≤ Qc_of_Z 5 ∧ 0 ≤ y0 ∧ y1 ≤ Qc_of_Z 2)%Qc.
Proof.
  pose proof (crop_box_largest_centered_square 5 2) as Hbox.
  unfold crop_box in *. cbv zeta in *.
  destruct Hbox as (_ & _ & Hfit). apply Hfit; lia.
Defined.

Lemma crop_box_well_formed_witness :
  let '(x0, y0, x1, y1) := crop_box 5 2 in
  (x1 - x0 = Qc_of_Z 2 ∧ y1 - y0 = Qc_of_Z 2)%Qc ∧
  fractional x0 || fractional y0 || fractional x1 || fractional y1 = true.
Proof.
  pose proof (crop_box_well_formed 5 2 ltac:(lia) ltac:(lia)) as Hbox.
  unfold crop_box in *. cbv zeta in *.
  destruct Hbox as (_ & _ & Hw & Hh & Hfrac). done.
Defined.

Lemma icons_written_witness :
  files (@main Dims.lib Dims.photo) !! "public/icon128.png" =
  Some (Dims.MkFile "PNG" (128, 128) false).
Proof.
  destruct (icons_written (PIL := Dims.lib) Dims.photo dims_resize_exact)
    as (i16 & i48 & i128 & (_ & _ & S128) & _ & _ & (_ & _ & F128) & _);
    [reflexivity|].
  cbn in S128. subst i128. exact F128.
Defined.

Lemma failure_is_caught_once_witness :
  outcome (@main Dims.lib Dims.protected) = inr () ∧
  List.filter (String.prefix "Error: ")
    (stdout (events (@main Dims.lib Dims.protected))) =
  ["Error: Permission denied: public/icon48.png"].
Proof.
  destruct (failure_is_caught_once (PIL := Dims.lib) Dims.protected
              "Permission denied: public/icon48.png")
    as (Ho & _ & Hl & _); [reflexivity|]. by split.
Defined.

Lemma missing_input_writes_nothing_witness :
  files (@main Dims.lib ∅) = ∅ ∧
  stdout (events (@main Dims.lib ∅)) =
  ["Error: No such file or directory: public/Whisk_5e6bbe242133923a5d44834e6368ed79dr.jpeg"].
Proof.
  destruct (missing_input_writes_nothing (PIL := Dims.lib) ∅
    "No such file or directory: public/Whisk_5e6bbe242133923a5d44834e6368ed79dr.jpeg")
    as (_ & Hf & _ & Hs); [reflexivity|]. by split.
Defined.

Lemma square_crop_is_whole_image_witness :
  crop_calls (events (@main Dims.lib Dims.square)) =
    [((128, 128), (Qc_of_Z 0, Qc_of_Z 0, Qc_of_Z 128, Qc_of_Z 128))] ∧
  ∃ rest, resize_calls (events (@main Dims.lib Dims.square)) =
            ((128, 128), (16, 16), LANCZOS) :: rest.
Proof.
  destruct (square_crop_is_whole_image (PIL := Dims.lib) Dims.square
              (128, 128) 128) as [Hcrop Hresize]; [reflexivity..|].
  destruct (Hresize dims_crop_full) as (rest & Hrest & _). eauto.
Defined.

Lemma runs_agree_witness :
  (∃ box, crop_calls (events (@main Dims.lib Dims.photo)) = [((400, 300), box)] ∧
          crop_calls (events (@main Dims.lib Dims.protected)) =
            [((400, 300), box)]) ∧
  @Image_size Dims.lib (16, 16) = @Image_size Dims.lib (16, 16).
Proof.
  destruct (runs_agree (PIL := Dims.lib) Dims.photo Dims.protected
              (400, 300) (400, 300) dims_resize_exact)
    as [Hbox Hdims]; [reflexivity..|].
  split; [exact Hbox|].
  apply (Hdims "public/icon16.png"); vm_compute; left.
Defined.

Lemma rounds_in_increasing_order_witness :
  resize_calls (events (@main Dims.lib Dims.photo)) `prefix_of`
    [((300, 300), (16, 16), LANCZOS); ((300, 300), (48, 48), LANCZOS);
     ((300, 300), (128, 128), LANCZOS)] ∧
  stdout (events (@main Dims.lib Dims.photo)) =
    ["Generated: public/icon16.png"; "Generated: public/icon48.png";
     "Generated: public/icon128.png"].
Proof.
  destruct (rounds_in_increasing_order (PIL := Dims.lib) Dims.photo)
    as (_ & _ & _ & Hsrc & Hok). split.
  - apply (Hsrc (400, 300) 400 300 (300, 300)); reflexivity.
  - apply Hok. reflexivity.
Defined.

Lemma resize_uses_lanczos_witness :
  (λ x, (x.1.2, x.2)) <$> resize_calls (events (@main Dims.lib Dims.photo)) =
  [((16, 16), LANCZOS); ((48, 48), LANCZOS); ((128, 128), LANCZOS)].
Proof.
  destruct (resize_uses_lanczos (PIL := Dims.lib) Dims.photo) as [_ Hok].
  apply Hok. reflexivity.
Defined.

Lemma only_icons_are_touched_witness :
  files (@main Dims.lib Dims.protected) !! "public/icon128.png" = None ∧
  files (@main Dims.lib Dims.photo) !! input_path =
    Some (Dims.MkFile "JPEG" (400, 300) false).
Proof.
  split.
  - rewrite (proj1 (only_icons_are_touched (PIL := Dims.lib) Dims.protected)
               "public/icon128.png"); [reflexivity|].
    apply (bool_decide_unpack _). by vm_compute.
  - destruct (only_icons_are_touched (PIL := Dims.lib) Dims.photo)
      as (_ & _ & Hframe).
    rewrite Hframe; [reflexivity|].
    apply (bool_decide_unpack _). by vm_compute.
Defined.

Lemma image_closed_once_witness :
  close_calls (events (@main Dims.lib ∅)) = [] ∧
  ∃ pre post : list (@Event Dims.lib),
    events (@main Dims.lib Dims.protected) =
      pre ++ Did (@CClose Dims.lib (400, 300)) :: post ∧
    close_calls pre = [].
Proof.
  split.
  - eapply (proj1 (image_closed_once (PIL := Dims.lib) ∅)). reflexivity.
  - destruct (proj2 (image_closed_once (PIL := Dims.lib) Dims.protected)
                (400, 300)) as (pre & post & ? & ? & _); [reflexivity|].
    by exists pre, post.
Defined.

Lemma crop_failure_writes_nothing_witness :
  files (@main Dims.truncated Dims.photo) = Dims.photo ∧
  stdout (events (@main Dims.truncated Dims.photo)) =
    ["Error: image file is truncated"].
Proof.
  destruct (crop_failure_writes_nothing (PIL := Dims.truncated) Dims.photo
              (400, 300) 400 300 "image file is truncated")
    as (Hf & _ & _ & _ & Hs); [reflexivity..|]. by split.
Defined.

Lemma error_line_iff_raised_witness :
  List.filter (String.prefix "Error: ")
    (stdout (events (@main Dims.lib Dims.photo))) = [].
Proof.
  apply (proj2 (error_line_iff_raised (PIL := Dims.lib) Dims.photo)).
  reflexivity.
Defined.

Lemma output_paths_distinct_witness : output_path 16 ≠ output_path 128.
Proof. apply output_paths_distinct. lia. Defined.

Lemma shorter_side_kept_whole_witness :
  let '(x0, y0, x1, y1) := crop_box 5 2 in
  y0 = Qc_of_Z 0 ∧ y1 = Qc_of_Z 2 ∧ (x1 - x0)%Qc = Qc_of_Z 2.
Proof.
  pose proof (shorter_side_kept_whole 5 2) as Hbox.
  unfold crop_box in *. cbv zeta in *.
  destruct Hbox as [Hwide _]. apply Hwide. lia.
Defined.

Lemma success_overwrites_icons_witness :
  files (@main Dims.lib Dims.stale) !! "public/icon16.png" =
  Some (Dims.MkFile "PNG" (16, 16) false).
Proof.
  destruct (success_overwrites_icons (PIL := Dims.lib) Dims.stale)
    as [_ Hfiles]; [reflexivity|].
  rewrite Hfiles. reflexivity.
Defined.

Lemma loop_keeps_written_files_witness :
  files (for_each [16; 48] (@icon Dims.lib (300, 300)) Dims.protected)
    !! "public/icon16.png" = Some (Dims.MkFile "PNG" (16, 16) false).
Proof.
  destruct (loop_keeps_written_files (PIL := Dims.lib) (300, 300) [16; 48]
              Dims.protected) as [Hkept _].
  - apply (bool_decide_unpack _). by vm_compute.
  - apply (Hkept "public/icon16.png" (16, 16)). vm_compute. left.
Defined.
